(** * Tensor products of Kirillov-Reshetikhin tableaux: the element class

    A shallow embedding of
    [sage/combinat/rigged_configurations/tensor_product_kr_tableaux_element.py]
    (class [TensorProductOfKirillovReshetikhinTableauxElement]) and the
    properties of its constructor, its two renderings, its classical weight
    and its two conversions.

    The class is glue code over collaborators that live in other modules:
    the factors (Kirillov-Reshetikhin tableaux), the parent, the weight
    lattice and the bijection engine.  They enter the development as an
    interface, the way the Python code reaches them through method calls. *)

From Stdlib Require Import List String Ascii ZArith Lia Bool Arith PeanoNat.
From Stdlib Require Import DecimalString Permutation.
Import ListNotations.
Local Open Scope string_scope.

(** ** The fragment of the Python runtime the class relies on *)

Module Py.

(** Exceptions the code of the class can raise by itself, and the errors
    raised by a collaborator, which the class lets through unchanged. *)
Inductive exn : Type :=
| IndexError
| ValueError
| TypeError
| CollaboratorError (msg : string).

Inductive result (A : Type) : Type :=
| Ok (a : A)
| Raise (e : exn).
Arguments Ok {A} a.
Arguments Raise {A} e.

Definition rbind {A B} (r : result A) (k : A -> result B) : result B :=
  match r with
  | Ok a => k a
  | Raise e => Raise e
  end.

(** [l[i]] for a non-negative index. *)
Definition getitem {A} (l : list A) (i : nat) : result A :=
  match nth_error l i with
  | Some a => Ok a
  | None => Raise IndexError
  end.

(** [range(a, b)]. *)
Definition range (a b : nat) : list nat := seq a (b - a).

(** A list comprehension whose element expression can raise: evaluation
    goes left to right and stops at the first exception. *)
Fixpoint comprehension {A B} (f : A -> result B) (l : list A)
  : result (list B) :=
  match l with
  | [] => Ok []
  | a :: l' =>
      rbind (f a) (fun b =>
      rbind (comprehension f l') (fun bs => Ok (b :: bs)))
  end.

(** [enumerate(l)]. *)
Fixpoint enumerate_from {A} (i : nat) (l : list A) : list (nat * A) :=
  match l with
  | [] => []
  | a :: l' => (i, a) :: enumerate_from (S i) l'
  end.
Definition enumerate {A} (l : list A) : list (nat * A) := enumerate_from 0 l.

(** [max(iterable)] on non-negative integers: [ValueError] on an empty
    argument. *)
Definition max (l : list nat) : result nat :=
  match l with
  | [] => Raise ValueError
  | n :: l' => Ok (fold_left Nat.max l' n)
  end.

(** [sep.join(l)]. *)
Fixpoint join (sep : string) (l : list string) : string :=
  match l with
  | [] => EmptyString
  | [s] => s
  | s :: l' => s ++ sep ++ join sep l'
  end.

(** [s * n]. *)
Fixpoint repeat_str (s : string) (n : nat) : string :=
  match n with
  | 0 => EmptyString
  | S n' => s ++ repeat_str s n'
  end.

Definition LF : ascii := "010"%char.
Definition CR : ascii := "013"%char.
Definition newline : string := String LF EmptyString.

(** [s.splitlines()] on a byte string (the class is Python 2 code): lines
    end at LF, CR or CR LF, the line ends are dropped and a final line end
    opens no further line.  [cur] is the line read so far. *)
Fixpoint splitlines_from (cur s : string) : list string :=
  match s with
  | EmptyString => if (String.length cur =? 0)%nat then [] else [cur]
  | String c rest =>
      if Ascii.eqb c LF then cur :: splitlines_from EmptyString rest
      else if Ascii.eqb c CR then
        match rest with
        | String c' rest' =>
            if Ascii.eqb c' LF then cur :: splitlines_from EmptyString rest'
            else cur :: splitlines_from EmptyString rest
        | EmptyString => cur :: splitlines_from EmptyString rest
        end
      else splitlines_from (cur ++ String c EmptyString) rest
  end.
Definition splitlines (s : string) : list string := splitlines_from EmptyString s.

End Py.
Import Py.

(** ** Collaborators *)

(** What the class asks of its factors and of the ambient weight lattice.
    A factor is an immutable object: its methods are functions of it. *)
Class FactorInterface : Type := {
  Letter : Type;
  Factor : Type;
  Weight : Type;
  KRCrystalElement : Type;
  KRCrystalsParent : Type;
  (** [repr(x)] *)
  factor_repr : Factor -> string;
  (** [x._repr_diagram()] *)
  factor_repr_diagram : Factor -> string;
  (** [x.classical_weight()] *)
  factor_classical_weight : Factor -> Weight;
  (** [x.to_kirillov_reshetikhin_crystal()] *)
  factor_to_kirillov_reshetikhin_crystal : Factor -> KRCrystalElement;
  (** [+] and the zero of the ambient weight lattice *)
  weight_add : Weight -> Weight -> Weight;
  weight_zero : Weight
}.

Section Element.
Context `{FI : FactorInterface}.

(** The parent: [parent.crystals[i]] is the constructor of the factors at
    position [i], called on the unpacked letters of a path [tab]; it may
    reject them. *)
Record Parent : Type := {
  crystals : list (list Letter -> result Factor);
  tensor_product_of_kirillov_reshetikhin_crystals : KRCrystalsParent
}.

(** Modelled from the spec: the base class
    [TensorProductOfRegularCrystalsElement] (sage.combinat.crystals.tensor_product)
    is not among the sources.  Its instances are, in the words of the
    specification, "an ordered, fixed-length sequence of factor objects"
    that "accepts pre-built factor objects directly": the parent and the
    list handed to the base constructor. *)
Record TPElement : Type := {
  parent : Parent;
  _list : list Factor
}.

Definition base_init (P : Parent) (l : list Factor) : TPElement :=
  {| parent := P; _list := l |}.

(** *** Construction

    [__init__(self, parent, list, **options)].  [pathlist] is
    the value of the option of that name, when given; [list_] is the
    argument [list], whose default value (a one-element list holding an
    empty list, not a factor) is left to the caller. *)
Definition __init__ (P : Parent) (list_ : list Factor)
           (pathlist : option (list (list Letter))) : result TPElement :=
  match pathlist with
  | Some pathlist =>
      rbind (comprehension
               (fun it : nat * list Letter =>
                  let (i, tab) := it in
                  rbind (getitem (crystals P) i) (fun c => c tab))
               (enumerate pathlist))
            (fun factors => Ok (base_init P factors))
  | None => Ok (base_init P list_)
  end.

(** *** The state the methods run in

    [self] is the object the method is called on, [stdout] what has been
    printed, and [getitem_log] records, in order, every index passed to
    [self[i]]. *)
Record world : Type := {
  self : TPElement;
  stdout : list string;
  getitem_log : list nat
}.

Definition fresh (e : TPElement) : world :=
  {| self := e; stdout := []; getitem_log := [] |}.

Definition M (A : Type) : Type := world -> result A * world.

Definition ret {A} (a : A) : M A := fun w => (Ok a, w).

Definition bind {A B} (m : M A) (k : A -> M B) : M B :=
  fun w =>
    match m w with
    | (Ok a, w') => k a w'
    | (Raise e, w') => (Raise e, w')
    end.

Definition lift {A} (r : result A) : M A := fun w => (r, w).

End Element.

Declare Scope py_scope.
Delimit Scope py_scope with py.
Notation "x <- m ;; k" := (bind m (fun x => k))
  (at level 61, m at next level, right associativity) : py_scope.
Notation "m ;;; k" := (bind m (fun _ => k))
  (at level 61, right associativity) : py_scope.
Local Open Scope py_scope.

Section Methods.
Context `{FI : FactorInterface}.

(** [self], read as a value *)
Definition get_self : M TPElement :=
  fun w => (Ok (self w), w).

(** [len(self)] *)
Definition self_len : M nat :=
  fun w => (Ok (List.length (_list (self w))), w).

(** [self[i]] *)
Definition self_getitem (i : nat) : M Factor :=
  fun w =>
    (getitem (_list (self w)) i,
     {| self := self w; stdout := stdout w;
        getitem_log := getitem_log w ++ [i] |}).

(** [for x in self]: the factors, in order. *)
Definition self_iter : M (list Factor) :=
  fun w => (Ok (_list (self w)), w).

(** [self.parent()] *)
Definition self_parent : M Parent :=
  fun w => (Ok (parent (self w)), w).

(** [print(s)] *)
Definition print (s : string) : M unit :=
  fun w =>
    (Ok tt,
     {| self := self w; stdout := stdout w ++ [s];
        getitem_log := getitem_log w |}).

(** A [for] loop whose body updates the local variable [s]. *)
Fixpoint for_each {A S} (l : list A) (body : A -> S -> M S) (s : S) : M S :=
  match l with
  | [] => ret s
  | a :: l' => s' <- body a s ;; for_each l' body s'
  end.

(** *** [_repr_] *)
Definition _repr_ : M string :=
  x0 <- self_getitem 0 ;;
  let ret_str := factor_repr x0 in
  n <- self_len ;;
  for_each (range 1 n)
    (fun i ret_str =>
       xi <- self_getitem i ;;
       ret (ret_str ++ (" (X) " ++ factor_repr xi)))
    ret_str.

(** *** [_repr_diagram] *)
Definition _repr_diagram : M string :=
  factors <- self_iter ;;
  let comp := map (fun crys => splitlines (factor_repr_diagram crys)) factors in
  let num_comp := List.length comp in
  col_len <- lift (comprehension
                     (fun t : list string =>
                        if (0 <? List.length t)%nat
                        then rbind (getitem t 0) (fun t0 =>
                               Ok (if (String.length t0 =? 0)%nat then 1
                                   else String.length t0))
                        else Ok 1)
                     comp) ;;
  num_rows <- lift (max (map (fun t => List.length t) comp)) ;;
  let diag := EmptyString in
  firsts <- lift (comprehension (fun c : list string => getitem c 0) comp) ;;
  let diag := diag ++ join " (X) " firsts in
  for_each (range 1 num_rows)
    (fun row diag =>
       let diag := diag ++ newline in
       for_each (range 0 num_comp)
         (fun c diag =>
            let diag := if (0 <? c)%nat then diag ++ "     " else diag in
            comp_c <- lift (getitem comp c) ;;
            if (row <? List.length comp_c)%nat
            then entry <- lift (getitem comp_c row) ;; ret (diag ++ entry)
            else n <- lift (getitem col_len c) ;;
                 ret (diag ++ repeat_str " " n))
         diag)
    diag.

(** *** [pp] *)
Definition pp : M unit :=
  d <- _repr_diagram ;; print d.

(** *** [classical_weight]

    [sum] starts from the integer [0] and adds the items from the left, so
    its value is a Python integer or a weight.  Sage's coercion turns the
    integer zero into the zero of the lattice when it meets a weight; no
    other integer coerces into the lattice. *)
Inductive pyval : Type :=
| PyInt (z : Z)
| PyWeight (wt : Weight).

Definition py_add (a b : pyval) : result pyval :=
  match a, b with
  | PyInt x, PyInt y => Ok (PyInt (x + y))
  | PyInt x, PyWeight v =>
      if (x =? 0)%Z then Ok (PyWeight (weight_add weight_zero v))
      else Raise TypeError
  | PyWeight u, PyInt y =>
      if (y =? 0)%Z then Ok (PyWeight (weight_add u weight_zero))
      else Raise TypeError
  | PyWeight u, PyWeight v => Ok (PyWeight (weight_add u v))
  end.

Fixpoint py_sum_from (acc : pyval) (l : list pyval) : result pyval :=
  match l with
  | [] => Ok acc
  | x :: l' => rbind (py_add acc x) (fun acc' => py_sum_from acc' l')
  end.

Definition py_sum (l : list pyval) : result pyval := py_sum_from (PyInt 0) l.

Definition classical_weight : M pyval :=
  factors <- self_iter ;;
  lift (py_sum (map (fun x => PyWeight (factor_classical_weight x)) factors)).

(** *** [to_tensor_product_of_kirillov_reshetikhin_crystals] *)

(** Modelled from the spec: the parent of the tensor product of
    Kirillov-Reshetikhin crystals and its element constructor [TP(...)]
    are not among the sources.  The specification has the call
    "reassemble the results into a tensor product in the corresponding
    crystal's parent": the element keeps its parent and the crystal
    elements it was called on, in the order of the call. *)
Record TPKRCrystalsElement : Type := {
  krc_parent : KRCrystalsParent;
  krc_factors : list KRCrystalElement
}.

Definition TP_call (TP : KRCrystalsParent) (args : list KRCrystalElement)
  : TPKRCrystalsElement :=
  {| krc_parent := TP; krc_factors := args |}.

Definition to_tensor_product_of_kirillov_reshetikhin_crystals
  : M TPKRCrystalsElement :=
  P <- self_parent ;;
  let TP := tensor_product_of_kirillov_reshetikhin_crystals P in
  factors <- self_iter ;;
  ret (TP_call TP (map factor_to_kirillov_reshetikhin_crystal factors)).

End Methods.

(** *** [to_rigged_configuration] *)

(** Modelled from the spec: the bijection engine [KRTToRCBijection]
    (sage.combinat.rigged_configurations.bijection) is not among the
    sources.  The specification gives its contract: it is "constructed from
    a tensor-product element" and "exposes Run(displaySteps)"; the run is an
    "uninterruptible, deterministic computation" in which the flag "merely
    toggles synchronous diagnostic output"; the engine "must treat [the
    element] as read-only and build its own working copy"; "any error raised
    by the engine propagates unchanged".  So an engine is built from the
    value of the element or refuses it, and its computation determines the
    diagnostic lines of the steps and the outcome. *)
Class BijectionEngine `{FI : FactorInterface} : Type := {
  RiggedConfiguration : Type;
  Engine : Type;
  KRTToRCBijection : TPElement -> result Engine;
  engine_computation : Engine -> list string * result RiggedConfiguration
}.

Section Bijection.
Context `{BE : BijectionEngine}.

(** [engine.run(display_steps)] *)
Definition run (engine : Engine) (display_steps : bool)
  : M RiggedConfiguration :=
  let (steps, outcome) := engine_computation engine in
  (if display_steps then for_each steps (fun s _ => print s) tt else ret tt) ;;;
  lift outcome.

Definition to_rigged_configuration (display_steps : bool)
  : M RiggedConfiguration :=
  this <- get_self ;;
  engine <- lift (KRTToRCBijection this) ;;
  run engine display_steps.

End Bijection.

(** ** A sample of collaborators

    Rectangular tableaux of integers, written after the examples in the
    docstrings of the class: a path of [r * s] letters fills the [s] columns
    of height [r] from bottom to top; [repr] is the list of rows; the
    diagram right-justifies each letter in three columns; the weight counts
    the letters with their signs.  It is not the code of [kr_tableaux.py],
    which is not among the sources; it serves to run the methods on the data
    of the docstrings. *)

Module Sample.

Record tableau : Type := {
  dim : nat;
  rows : list (list Z)
}.

Definition show_Z (z : Z) : string := NilZero.string_of_int (Z.to_int z).

Definition show_list (items : list string) : string :=
  "[" ++ join ", " items ++ "]".

Definition rjust (n : nat) (s : string) : string :=
  repeat_str " " (n - String.length s) ++ s.

Definition tableau_repr (t : tableau) : string :=
  show_list (map (fun row => show_list (map show_Z row)) (rows t)).

Definition tableau_diagram (t : tableau) : string :=
  join newline
    (map (fun row => String.concat EmptyString
                       (map (fun z => rjust 3 (show_Z z)) row))
         (rows t)).

Fixpoint vec_add (u v : list Z) : list Z :=
  match u, v with
  | [], _ => v
  | _, [] => u
  | x :: u', y :: v' => (x + y)%Z :: vec_add u' v'
  end.

Definition basis (n : nat) (z : Z) : list Z :=
  map (fun i => if (Z.of_nat i =? z)%Z then 1%Z
                else if (Z.of_nat i =? - z)%Z then (-1)%Z else 0%Z)
      (seq 1 n).

Definition tableau_weight (t : tableau) : list Z :=
  fold_left vec_add (map (basis (dim t)) (List.concat (rows t)))
            (List.repeat 0%Z (dim t)).

(** The constructor of the factors of shape [r] by [s] in rank [n]. *)
Definition kr_tableaux (n r s : nat) (tab : list Z) : result tableau :=
  if (List.length tab =? r * s)%nat then
    let columns :=
      map (fun j => rev (firstn r (skipn (j * r) tab))) (seq 0 s) in
    Ok {| dim := n;
          rows := map (fun i => map (fun col => nth i col 0%Z) columns)
                      (seq 0 r) |}
  else Raise (CollaboratorError "the path does not fill the shape").

#[export] Instance factors : FactorInterface := {|
  Letter := Z;
  Factor := tableau;
  Weight := list Z;
  KRCrystalElement := list (list Z);
  KRCrystalsParent := list (nat * nat);
  factor_repr := tableau_repr;
  factor_repr_diagram := tableau_diagram;
  factor_classical_weight := tableau_weight;
  factor_to_kirillov_reshetikhin_crystal := rows;
  weight_add := vec_add;
  weight_zero := []
|}.

(** The parent of rank [n] with the factor shapes [dims]. *)
Definition KRT (n : nat) (dims : list (nat * nat)) : Parent :=
  {| crystals := map (fun rs => kr_tableaux n (fst rs) (snd rs)) dims;
     tensor_product_of_kirillov_reshetikhin_crystals := dims |}.

(** An engine that refuses the empty tensor product, reports one line per
    factor and returns the number of factors. *)
#[export] Instance engine : BijectionEngine := {|
  RiggedConfiguration := nat;
  Engine := list tableau;
  KRTToRCBijection e :=
    match _list e with
    | [] => Raise (CollaboratorError "no factor")
    | l => Ok l
    end;
  engine_computation l := (map tableau_repr l, Ok (List.length l))
|}.

(** Type A, rank 3, docstring of the class. *)
Definition KRT_A3 : Parent :=
  KRT 4 [(1, 1); (2, 1); (1, 1); (2, 1); (2, 1); (2, 1)]%nat.
Definition path_A3 : list (list Z) :=
  [[2]; [4; 1]; [3]; [4; 2]; [3; 1]; [2; 1]]%Z.

(** Type A, rank 4, docstring of [_repr_diagram]: the first module
    generator. *)
Definition KRT_A4 : Parent := KRT 5 [(2, 2); (3, 1); (3, 3)]%nat.
Definition path_A4 : list (list Z) :=
  [[2; 1; 2; 1]; [3; 2; 1]; [3; 2; 1; 3; 2; 1; 3; 2; 1]]%Z.

(** Type D, rank 4, docstring of [classical_weight]. *)
Definition KRT_D4 : Parent := KRT 4 [(2, 2)]%nat.
Definition path_D4 : list (list Z) := [[3; 2; -1; 1]]%Z.

(** A factor whose diagram has no row. *)
Definition no_row : tableau := {| dim := 4; rows := [] |}.
Definition one_box : tableau := {| dim := 4; rows := [[1%Z]] |}.

Definition built (r : result TPElement) : TPElement :=
  match r with
  | Ok e => e
  | Raise _ => {| parent := KRT 0 []; _list := [] |}
  end.

Definition T_A3 : TPElement := built (__init__ KRT_A3 [] (Some path_A3)).
Definition T_A4 : TPElement := built (__init__ KRT_A4 [] (Some path_A4)).
Definition T_D4 : TPElement := built (__init__ KRT_D4 [] (Some path_D4)).

(** Two elements given by their factors: one with a factor without rows,
    one without factors. *)
Definition T_no_row : TPElement := {| parent := KRT_D4; _list := [no_row; one_box] |}.
Definition T_empty : TPElement := {| parent := KRT_D4; _list := [] |}.

(** A path too many, and paths too few, for [KRT_A3]. *)
Definition path_long : list (list Z) := (path_A3 ++ [[1]])%list%Z.
Definition path_short : list (list Z) := [[2]]%Z.

End Sample.

(** ** Vocabulary of the statements *)

(** Every item but the first comes after a separator. *)
Fixpoint prefixed (sep : string) (l : list string) : string :=
  match l with
  | [] => EmptyString
  | s :: l' => sep ++ s ++ prefixed sep l'
  end.

(** A string without a line end. *)
Fixpoint no_break (s : string) : bool :=
  match s with
  | EmptyString => true
  | String c s' =>
      negb (Ascii.eqb c LF) && negb (Ascii.eqb c CR) && no_break s'
  end.

Section Vocabulary.
Context `{FI : FactorInterface}.

(** The state after [self[i]] has been evaluated for each [i] of [idx]. *)
Definition logged (idx : list nat) (w : world) : world :=
  {| self := self w; stdout := stdout w;
     getitem_log := getitem_log w ++ idx |}.

(** One round of the loop of [_repr_]. *)
Definition repr_step (ret_str : string) (x : Factor) : string :=
  ret_str ++ (" (X) " ++ factor_repr x).

(** The rows of the diagrams of the factors: [comp] in the code. *)
Definition diagram_of (w : world) : list (list string) :=
  map (fun crys => splitlines (factor_repr_diagram crys)) (_list (self w)).

(** The entry of [col_len] for the component [t]. *)
Definition col_width (t : list string) : nat :=
  match t with
  | [] => 1
  | t0 :: _ => if (String.length t0 =? 0)%nat then 1 else String.length t0
  end.

(** The number of rows of the output. *)
Definition height (comp : list (list string)) : nat :=
  list_max (map (fun t => List.length t) comp).

(** What the component [t] contributes to the output row [row]: its own
    row, or blanks when it has no such row. *)
Definition cell (t : list string) (row : nat) : string :=
  match nth_error t row with
  | Some s => s
  | None => repeat_str " " (col_width t)
  end.

Definition row_text (comp : list (list string)) (row : nat) : string :=
  join (if (row =? 0)%nat then " (X) " else "     ")
       (map (fun t => cell t row) comp).

(** The width of a component is that of its first row. *)
Definition width (t : list string) : nat :=
  match t with
  | [] => 0
  | t0 :: _ => String.length t0
  end.

(** A well-formed rectangle: at least one row, at least one column, every
    row as wide as the first. *)
Definition is_rectangle (t : list string) : bool :=
  (0 <? List.length t)%nat && (0 <? width t)%nat
  && forallb (fun r => (String.length r =? width t)%nat) t.

(** The sum of vectors of the weight lattice. *)
Definition vector_sum (ws : list Weight) : Weight :=
  fold_left weight_add ws weight_zero.

(** A Python value read in the weight lattice, the way Sage's coercion
    reads it: the integer zero is the zero vector. *)
Definition as_weight (v : pyval) : option Weight :=
  match v with
  | PyInt z => if (z =? 0)%Z then Some weight_zero else None
  | PyWeight u => Some u
  end.

(** The state after the lines [lines] have been printed. *)
Definition printed (lines : list string) (w : world) : world :=
  {| self := self w; stdout := stdout w ++ lines;
     getitem_log := getitem_log w |}.

(** A computation that leaves the object it runs on as it found it:
    same parent, same factors in the same order. *)
Definition preserves_self {A} (m : M A) : Prop :=
  forall w, self (snd (m w)) = self w.

(** An assignment to the factors of [self], as the base constructor makes
    one: the kind of step that the methods are shown not to take. *)
Definition assign_list (l : list Factor) : M unit :=
  fun w =>
    (Ok tt,
     {| self := {| parent := parent (self w); _list := l |};
        stdout := stdout w; getitem_log := getitem_log w |}).

End Vocabulary.

(** * Properties *)

(** ** Strings *)

Section StringFacts.

Lemma append_assoc (a b c : string) : (a ++ b) ++ c = a ++ (b ++ c).
Proof.
  induction a as [|ch a IH]; simpl; [reflexivity | now rewrite IH].
Qed.

Lemma append_empty_r (a : string) : a ++ EmptyString = a.
Proof.
  induction a as [|ch a IH]; simpl; [reflexivity | now rewrite IH].
Qed.

Lemma length_append (a b : string) :
  String.length (a ++ b) = String.length a + String.length b.
Proof.
  induction a as [|ch a IH]; simpl; [reflexivity | now rewrite IH].
Qed.

Lemma length_repeat_space (n : nat) : String.length (repeat_str " " n) = n.
Proof.
  induction n as [|n IH]; simpl; [reflexivity | now rewrite IH].
Qed.

Lemma join_cons (sep x : string) (l : list string) :
  join sep (x :: l) = x ++ prefixed sep l.
Proof.
  revert x; induction l as [|y l IH]; intros x.
  - simpl. now rewrite append_empty_r.
  - change (join sep (x :: y :: l)) with (x ++ sep ++ join sep (y :: l)).
    now rewrite IH.
Qed.

Lemma prefixed_app (sep : string) (l1 l2 : list string) :
  prefixed sep (l1 ++ l2) = prefixed sep l1 ++ prefixed sep l2.
Proof.
  induction l1 as [|x l1 IH]; simpl; [reflexivity |].
  now rewrite IH, !append_assoc.
Qed.

Lemma length_prefixed (sep : string) (l : list string) :
  String.length (prefixed sep l) =
  list_sum (map String.length l) + String.length sep * List.length l.
Proof.
  induction l as [|x l IH]; simpl; [lia |].
  rewrite !length_append, IH. lia.
Qed.

Lemma length_join (sep : string) (l : list string) :
  String.length (join sep l) =
  list_sum (map String.length l) + String.length sep * (List.length l - 1).
Proof.
  destruct l as [|x l]; [simpl; lia |].
  rewrite join_cons, length_append, length_prefixed. simpl. lia.
Qed.

Lemma no_break_append (a b : string) :
  no_break (a ++ b) = no_break a && no_break b.
Proof.
  induction a as [|ch a IH]; simpl; [reflexivity |].
  now rewrite IH, andb_assoc.
Qed.

Lemma no_break_spaces (n : nat) : no_break (repeat_str " " n) = true.
Proof. induction n as [|n IH]; [reflexivity | exact IH]. Qed.

Lemma no_break_prefixed (sep : string) (l : list string) :
  no_break sep = true -> Forall (fun s => no_break s = true) l ->
  no_break (prefixed sep l) = true.
Proof.
  intros Hsep. induction 1 as [|x l Hx _ IH]; [reflexivity |].
  cbn [prefixed]. now rewrite !no_break_append, Hsep, Hx, IH.
Qed.

Lemma no_break_join (sep : string) (l : list string) :
  no_break sep = true -> Forall (fun s => no_break s = true) l ->
  no_break (join sep l) = true.
Proof.
  intros Hsep [|x l' Hx Hl]; [reflexivity |].
  rewrite join_cons, no_break_append, Hx. now apply no_break_prefixed.
Qed.

(** The lines that [splitlines] returns have no line end in them. *)
Lemma splitlines_from_no_break (n : nat) :
  forall s cur, String.length s <= n -> no_break cur = true ->
    Forall (fun l => no_break l = true) (splitlines_from cur s).
Proof.
  induction n as [|n IH]; intros s cur Hn Hcur.
  - destruct s; [| simpl in Hn; lia]. simpl.
    destruct (String.length cur =? 0)%nat; auto.
  - destruct s as [|c rest]; cbn [splitlines_from].
    + destruct (String.length cur =? 0)%nat; auto.
    + simpl in Hn.
      destruct (Ascii.eqb c LF) eqn:E1.
      { constructor; [assumption | apply IH; [lia | reflexivity]]. }
      destruct (Ascii.eqb c CR) eqn:E2.
      { destruct rest as [|c' rest'].
        - constructor; [assumption | apply IH; [simpl; lia | reflexivity]].
        - simpl in Hn.
          destruct (Ascii.eqb c' LF);
            (constructor; [assumption | apply IH; [simpl; lia | reflexivity]]). }
      apply IH; [lia |].
      rewrite no_break_append, Hcur. simpl. now rewrite E1, E2.
Qed.

Lemma splitlines_no_break (s : string) :
  Forall (fun l => no_break l = true) (splitlines s).
Proof.
  apply (splitlines_from_no_break (String.length s)); [lia | reflexivity].
Qed.

(** [splitlines] on a text whose first line end is a line feed. *)
Lemma splitlines_from_line (s cur rest : string) :
  no_break s = true ->
  splitlines_from cur (s ++ String LF rest)
  = (cur ++ s) :: splitlines_from EmptyString rest.
Proof.
  revert cur. induction s as [|c s IH]; intros cur Hs.
  - simpl. now rewrite append_empty_r.
  - simpl in Hs. apply andb_prop in Hs as [Hc Hs].
    apply andb_prop in Hc as [H1 H2].
    apply negb_true_iff in H1, H2.
    cbn [append splitlines_from]. rewrite H1, H2.
    rewrite IH by assumption. now rewrite append_assoc.
Qed.

(** ... and on a text without a line end. *)
Lemma splitlines_from_last (s cur : string) :
  no_break s = true ->
  splitlines_from cur s
  = if (String.length (cur ++ s) =? 0)%nat then [] else [cur ++ s].
Proof.
  revert cur. induction s as [|c s IH]; intros cur Hs.
  - simpl. now rewrite append_empty_r.
  - simpl in Hs. apply andb_prop in Hs as [Hc Hs].
    apply andb_prop in Hc as [H1 H2].
    apply negb_true_iff in H1, H2.
    cbn [splitlines_from]. rewrite H1, H2.
    rewrite IH by assumption. now rewrite append_assoc.
Qed.

(** Lines joined by line feeds are split into themselves, when none is
    empty or holds a line end. *)
Lemma splitlines_join (rows : list string) :
  Forall (fun r => no_break r = true) rows ->
  Forall (fun r => 0 < String.length r) rows ->
  splitlines (join newline rows) = rows.
Proof.
  unfold splitlines.
  induction rows as [|r rows IH]; intros Hb Hl; [reflexivity |].
  inversion Hb as [|? ? Hr Hb']; subst. inversion Hl as [|? ? Lr Hl']; subst.
  destruct rows as [|r2 rows].
  - cbn [join]. rewrite splitlines_from_last by assumption.
    cbn [append]. destruct (String.length r =? 0)%nat eqn:E; [| reflexivity].
    apply Nat.eqb_eq in E. lia.
  - change (join newline (r :: r2 :: rows))
      with (r ++ String LF (join newline (r2 :: rows))).
    rewrite splitlines_from_line by assumption.
    cbn [append]. now rewrite IH.
Qed.

End StringFacts.

(** ** Running the methods *)

Section MonadFacts.
Context `{FI : FactorInterface}.

Lemma getitem_Ok {A} (l : list A) (i : nat) (a : A) :
  getitem l i = Ok a <-> nth_error l i = Some a.
Proof.
  unfold getitem. destruct (nth_error l i); split; congruence.
Qed.

Lemma getitem_Raise {A} (l : list A) (i : nat) (e : exn) :
  getitem l i = Raise e -> e = IndexError /\ List.length l <= i.
Proof.
  unfold getitem. destruct (nth_error l i) eqn:E; [discriminate |].
  intros [= <-]. split; [reflexivity | now apply nth_error_None].
Qed.

Lemma logged_logged (i j : list nat) (w : world) :
  logged j (logged i w) = logged (i ++ j)%list w.
Proof. unfold logged; simpl. now rewrite app_assoc. Qed.

Lemma bind_ok {A B} (m : M A) (k : A -> M B) (w w' : world) (a : A) :
  m w = (Ok a, w') -> bind m k w = k a w'.
Proof. intros E. unfold bind. now rewrite E. Qed.

Lemma bind_raise {A B} (m : M A) (k : A -> M B) (w w' : world) (e : exn) :
  m w = (Raise e, w') -> bind m k w = (Raise e, w').
Proof. intros E. unfold bind. now rewrite E. Qed.

Lemma self_getitem_ok (i : nat) (x : Factor) (w : world) :
  nth_error (_list (self w)) i = Some x ->
  self_getitem i w = (Ok x, logged [i] w).
Proof. intros E. unfold self_getitem, getitem. now rewrite E. Qed.

End MonadFacts.

(** ** [_repr_] *)

Section Repr.
Context `{FI : FactorInterface}.

(** The loop of [_repr_] over the factors [rest] that follow [pre]. *)
Lemma repr_loop (rest pre : list Factor) (acc : string) (w : world) :
  _list (self w) = (pre ++ rest)%list ->
  for_each (seq (List.length pre) (List.length rest))
    (fun i ret_str =>
       xi <- self_getitem i ;;
       ret (ret_str ++ (" (X) " ++ factor_repr xi)))
    acc w
  = (Ok (fold_left repr_step rest acc),
     logged (seq (List.length pre) (List.length rest)) w).
Proof.
  revert pre acc w.
  induction rest as [|x rest IH]; intros pre acc w E.
  - simpl. unfold ret, logged. rewrite app_nil_r. now destruct w.
  - cbn [List.length seq for_each fold_left].
    erewrite bind_ok; cycle 1.
    { erewrite bind_ok; [reflexivity |].
      apply self_getitem_ok.
      rewrite E, nth_error_app2, Nat.sub_diag by lia. reflexivity. }
    replace (S (List.length pre)) with (List.length (pre ++ [x])%list)
      by (rewrite length_app; simpl; lia).
    rewrite IH by (simpl; rewrite E, <- app_assoc; reflexivity).
    now rewrite logged_logged.
Qed.

Lemma fold_repr_step (rest : list Factor) (acc : string) (x : Factor) :
  fold_left repr_step rest (acc ++ factor_repr x)
  = acc ++ join " (X) " (map factor_repr (x :: rest)).
Proof.
  revert acc x; induction rest as [|y rest IH]; intros acc x.
  - reflexivity.
  - cbn [fold_left]. unfold repr_step at 2.
    rewrite <- !append_assoc, IH.
    change (map factor_repr (x :: y :: rest))
      with (factor_repr x :: map factor_repr (y :: rest)).
    rewrite (join_cons _ (factor_repr x)). cbn [map prefixed].
    rewrite join_cons, !append_assoc. reflexivity.
Qed.

(** What [_repr_] does on an element with a first factor. *)
Lemma repr_run (x : Factor) (rest : list Factor) (w : world) :
  _list (self w) = x :: rest ->
  _repr_ w = (Ok (join " (X) " (map factor_repr (x :: rest))),
              logged (seq 0 (S (List.length rest))) w).
Proof.
  intros E. unfold _repr_.
  erewrite bind_ok by (apply self_getitem_ok; rewrite E; reflexivity).
  erewrite bind_ok by reflexivity.
  cbn [self logged]. rewrite E. cbn [List.length]. unfold range.
  rewrite Nat.sub_succ, Nat.sub_0_r.
  rewrite (repr_loop rest [x]) by (simpl; now rewrite E).
  rewrite logged_logged. cbn [List.length app seq].
  f_equal. f_equal.
  exact (fold_repr_step rest EmptyString x).
Qed.

(** What it does on the element without factors. *)
Lemma repr_run_empty (w : world) :
  _list (self w) = [] -> _repr_ w = (Raise IndexError, logged [0] w).
Proof.
  intros E. unfold _repr_, bind, self_getitem, getitem. now rewrite E.
Qed.

(** C3.  On an element with at least one factor, [_repr_] returns the
    single-line representations of the factors, in the order of the
    factors, joined by the separator [" (X) "]. *)
Theorem repr_is_join (w : world) :
  _list (self w) <> [] ->
  fst (_repr_ w) = Ok (join " (X) " (map factor_repr (_list (self w)))).
Proof.
  intros NE. destruct (_list (self w)) as [|x rest] eqn:E; [congruence |].
  now rewrite (repr_run x rest w E).
Qed.

(** C10.  [_repr_] reads [self[0]] before anything else: on the element
    without factors it raises [IndexError], with index 0 the only one
    accessed, and returns no string; on an element with at least one factor
    it returns a string, and every index it passes to [self[i]] is below
    the number of factors. *)
Theorem repr_total_iff_nonempty (w : world) :
  (_list (self w) = [] ->
     fst (_repr_ w) = Raise IndexError /\
     getitem_log (snd (_repr_ w)) = (getitem_log w ++ [0])%list) /\
  (_list (self w) <> [] ->
     (exists s, fst (_repr_ w) = Ok s) /\
     exists accessed,
       getitem_log (snd (_repr_ w)) = (getitem_log w ++ accessed)%list /\
       Forall (fun i => i < List.length (_list (self w))) accessed).
Proof.
  split.
  - intros E. now rewrite (repr_run_empty w E).
  - intros NE. destruct (_list (self w)) as [|x rest] eqn:E; [congruence |].
    rewrite (repr_run x rest w E). split; [eexists; reflexivity |].
    exists (seq 0 (S (List.length rest))). split; [reflexivity |].
    apply Forall_forall. intros i Hi. apply in_seq in Hi. simpl. lia.
Qed.

(** ** Further properties of [_repr_] *)

Lemma join_app (sep : string) (l1 l2 : list string) :
  l1 <> [] -> l2 <> [] ->
  join sep (l1 ++ l2) = join sep l1 ++ sep ++ join sep l2.
Proof.
  destruct l1 as [|x l1]; [congruence |].
  destruct l2 as [|y l2]; [congruence |]. intros _ _.
  change ((x :: l1) ++ y :: l2)%list with (x :: (l1 ++ y :: l2))%list.
  rewrite !join_cons, prefixed_app. cbn [prefixed].
  now rewrite !append_assoc.
Qed.

(** X5.  [_repr_] of a tensor product of two elements: when the factors of
    [self] are those of one element followed by those of another, each with
    at least one factor, [_repr_] returns the two representations with the
    separator between them. *)
Theorem repr_concat (w w1 w2 : world) :
  _list (self w) = (_list (self w1) ++ _list (self w2))%list ->
  _list (self w1) <> [] -> _list (self w2) <> [] ->
  exists s1 s2,
    fst (_repr_ w1) = Ok s1 /\ fst (_repr_ w2) = Ok s2 /\
    fst (_repr_ w) = Ok (s1 ++ " (X) " ++ s2).
Proof.
  intros E N1 N2.
  destruct (_list (self w1)) as [|x1 r1] eqn:E1; [congruence |].
  destruct (_list (self w2)) as [|x2 r2] eqn:E2; [congruence |].
  exists (join " (X) " (map factor_repr (x1 :: r1))),
         (join " (X) " (map factor_repr (x2 :: r2))).
  rewrite (repr_run x1 r1 w1 E1), (repr_run x2 r2 w2 E2).
  rewrite (repr_run x1 (r1 ++ x2 :: r2) w) by exact E.
  cbn [fst]. repeat split.
  change (x1 :: r1 ++ x2 :: r2)%list with ((x1 :: r1) ++ x2 :: r2)%list.
  rewrite map_app, join_app by discriminate. reflexivity.
Qed.

(** X6.  On an element with [n] factors, [n] at least one, [_repr_]
    evaluates [self[i]] once for each position, in the order 0, 1, ...,
    [n - 1], prints nothing and leaves [self] as it is. *)
Theorem repr_reads_each_factor_once (w : world) :
  _list (self w) <> [] ->
  self (snd (_repr_ w)) = self w /\
  stdout (snd (_repr_ w)) = stdout w /\
  getitem_log (snd (_repr_ w))
  = (getitem_log w ++ seq 0 (List.length (_list (self w))))%list.
Proof.
  intros NE. destruct (_list (self w)) as [|x rest] eqn:E; [congruence |].
  rewrite (repr_run x rest w E). repeat split.
Qed.

End Repr.

(** ** [_repr_diagram] *)

Section Diagram.
Context `{FI : FactorInterface}.

Lemma col_len_ok (comp : list (list string)) :
  comprehension
    (fun t : list string =>
       if (0 <? List.length t)%nat
       then rbind (getitem t 0) (fun t0 =>
              Ok (if (String.length t0 =? 0)%nat then 1
                  else String.length t0))
       else Ok 1)
    comp
  = Ok (map col_width comp).
Proof.
  induction comp as [|t comp IH]; [reflexivity |].
  cbn [comprehension map]. rewrite IH.
  destruct t as [|t0 t]; reflexivity.
Qed.

Lemma fold_max_list_max (l : list nat) (n : nat) :
  fold_left Nat.max l n = Nat.max n (list_max l).
Proof.
  revert n; induction l as [|m l IH]; intros n; simpl.
  - lia.
  - rewrite IH. lia.
Qed.

Lemma max_ok (comp : list (list string)) :
  comp <> [] ->
  max (map (fun t => List.length t) comp) = Ok (height comp).
Proof.
  destruct comp as [|t comp]; [congruence | intros _].
  unfold height. cbn [map max list_max fold_right].
  now rewrite fold_max_list_max.
Qed.

Lemma firsts_ok (comp : list (list string)) :
  Forall (fun t => t <> []) comp ->
  comprehension (fun c : list string => getitem c 0) comp
  = Ok (map (fun t => cell t 0) comp).
Proof.
  induction 1 as [|t comp Ht _ IH]; [reflexivity |].
  cbn [comprehension map]. rewrite IH.
  destruct t as [|t0 t]; [congruence | reflexivity].
Qed.

Lemma firsts_fail (comp : list (list string)) :
  Exists (fun t => t = []) comp ->
  comprehension (fun c : list string => getitem c 0) comp
  = Raise IndexError.
Proof.
  induction 1 as [t comp Ht | t comp _ IH].
  - subst t. reflexivity.
  - cbn [comprehension]. rewrite IH.
    destruct t as [|t0 t]; reflexivity.
Qed.

(** The body of the inner loop, with its local definition unfolded. *)
Local Abbreviation row_body comp col_len row :=
  (fun c diag =>
     comp_c <- lift (getitem comp c) ;;
     if (row <? List.length comp_c)%nat
     then entry <- lift (getitem comp_c row) ;;
          ret ((if (0 <? c)%nat then diag ++ "     " else diag) ++ entry)
     else n <- lift (getitem col_len c) ;;
          ret ((if (0 <? c)%nat then diag ++ "     " else diag)
               ++ repeat_str " " n)).

(** One round of the inner loop, at the component [t] of index [c]. *)
Lemma row_step (comp : list (list string)) (row c : nat) (t : list string)
      (acc : string) (w : world) :
  nth_error comp c = Some t ->
  row_body comp (map col_width comp) row c acc w
  = (Ok ((if (0 <? c)%nat then acc ++ "     " else acc) ++ cell t row), w).
Proof.
  intros E. unfold bind, lift, ret, getitem, cell. rewrite E.
  destruct (row <? List.length t)%nat eqn:L.
  - apply Nat.ltb_lt in L.
    destruct (nth_error t row) as [s|] eqn:Es; [reflexivity |].
    apply nth_error_None in Es. lia.
  - apply Nat.ltb_ge in L.
    rewrite nth_error_map, E. cbn [option_map].
    destruct (nth_error t row) as [s|] eqn:Es; [| reflexivity].
    assert (row < List.length t) by (apply nth_error_Some; congruence). lia.
Qed.

(** The inner loop over the components [rest] that follow [pre]. *)
Lemma row_loop_tail (comp : list (list string)) (row : nat)
      (rest pre : list (list string)) (acc : string) (w : world) :
  comp = (pre ++ rest)%list -> pre <> [] ->
  for_each (seq (List.length pre) (List.length rest))
    (row_body comp (map col_width comp) row) acc w
  = (Ok (acc ++ prefixed "     " (map (fun t => cell t row) rest)), w).
Proof.
  revert pre acc.
  induction rest as [|t rest IH]; intros pre acc E NE.
  - simpl. unfold ret. now rewrite append_empty_r.
  - cbn [List.length seq for_each].
    erewrite bind_ok; cycle 1.
    { apply (row_step comp row (List.length pre) t).
      rewrite E, nth_error_app2, Nat.sub_diag by lia. reflexivity. }
    replace (S (List.length pre)) with (List.length (pre ++ [t])%list)
      by (rewrite length_app; simpl; lia).
    rewrite IH; cycle 1.
    { rewrite E, <- app_assoc. reflexivity. }
    { destruct pre; discriminate. }
    destruct pre as [|p pre]; [congruence |].
    cbn [List.length Nat.ltb Nat.leb map prefixed].
    now rewrite !append_assoc.
Qed.

(** The inner loop: one output row after the first. *)
Lemma row_loop (comp : list (list string)) (row : nat) (acc : string)
      (w : world) :
  for_each (range 0 (List.length comp))
    (row_body comp (map col_width comp) row) acc w
  = (Ok (acc ++ join "     " (map (fun t => cell t row) comp)), w).
Proof.
  unfold range. rewrite Nat.sub_0_r.
  destruct comp as [|t rest].
  - simpl. unfold ret. now rewrite append_empty_r.
  - remember (t :: rest) as comp eqn:E.
    replace (List.length comp) with (S (List.length rest))
      by (subst comp; reflexivity).
    cbn [seq for_each].
    erewrite bind_ok; cycle 1.
    { apply (row_step comp row 0 t). subst comp. reflexivity. }
    rewrite (row_loop_tail comp row rest [t]) by (subst comp; easy).
    subst comp. cbn [map Nat.ltb Nat.leb]. rewrite join_cons.
    now rewrite append_assoc.
Qed.

(** The outer loop: the output rows from [k] on. *)
Lemma rows_loop (comp : list (list string)) (m k : nat) (acc : string)
      (w : world) :
  1 <= k ->
  for_each (seq k m)
    (fun row diag =>
       for_each (range 0 (List.length comp))
         (row_body comp (map col_width comp) row) (diag ++ newline))
    acc w
  = (Ok (acc ++ prefixed newline (map (row_text comp) (seq k m))), w).
Proof.
  revert k acc.
  induction m as [|m IH]; intros k acc Hk.
  - simpl. unfold ret. now rewrite append_empty_r.
  - cbn [seq for_each map prefixed].
    erewrite bind_ok by apply row_loop.
    rewrite IH by lia.
    unfold row_text at 2.
    replace (k =? 0)%nat with false by (symmetry; apply Nat.eqb_neq; lia).
    now rewrite !append_assoc.
Qed.

Lemma height_pos (comp : list (list string)) :
  comp <> [] -> Forall (fun t => t <> []) comp -> 1 <= height comp.
Proof.
  intros NE H. destruct H as [|t comp Ht _]; [congruence |].
  unfold height. cbn [map list_max fold_right].
  destruct t; [congruence | cbn [List.length]; lia].
Qed.

(** What [_repr_diagram] does when every factor has a first row. *)
Lemma repr_diagram_run (w : world) :
  _list (self w) <> [] ->
  Forall (fun t => t <> []) (diagram_of w) ->
  _repr_diagram w
  = (Ok (join newline
           (map (row_text (diagram_of w)) (seq 0 (height (diagram_of w))))),
     w).
Proof.
  intros NE Rows. unfold _repr_diagram.
  erewrite bind_ok by reflexivity. cbv zeta.
  change (map (fun crys => splitlines (factor_repr_diagram crys))
              (_list (self w))) with (diagram_of w).
  assert (NE' : diagram_of w <> []).
  { unfold diagram_of. destruct (_list (self w)); [congruence | discriminate]. }
  pose proof (height_pos _ NE' Rows) as Hpos.
  erewrite bind_ok by (unfold lift; rewrite col_len_ok; reflexivity).
  erewrite bind_ok by (unfold lift; rewrite max_ok by assumption; reflexivity).
  erewrite bind_ok by (unfold lift; rewrite firsts_ok by assumption; reflexivity).
  change (range 1 (height (diagram_of w)))
    with (seq 1 (height (diagram_of w) - 1)).
  rewrite rows_loop by lia.
  destruct (height (diagram_of w)) as [|h]; [lia |].
  cbn [seq map]. rewrite join_cons. rewrite Nat.sub_succ, Nat.sub_0_r.
  reflexivity.
Qed.

(** ... when some factor has no row at all ... *)
Lemma repr_diagram_zero_rows (w : world) :
  Exists (fun t => t = []) (diagram_of w) ->
  _repr_diagram w = (Raise IndexError, w).
Proof.
  intros Ex. unfold _repr_diagram.
  erewrite bind_ok by reflexivity. cbv zeta.
  change (map (fun crys => splitlines (factor_repr_diagram crys))
              (_list (self w))) with (diagram_of w).
  assert (NE' : diagram_of w <> []) by (destruct Ex; discriminate).
  erewrite bind_ok by (unfold lift; rewrite col_len_ok; reflexivity).
  erewrite bind_ok by (unfold lift; rewrite max_ok by assumption; reflexivity).
  erewrite bind_raise by (unfold lift; rewrite firsts_fail by assumption; reflexivity).
  reflexivity.
Qed.

(** ... and when there is no factor. *)
Lemma repr_diagram_no_factor (w : world) :
  _list (self w) = [] -> _repr_diagram w = (Raise ValueError, w).
Proof.
  intros E. unfold _repr_diagram, bind, self_iter. rewrite E. reflexivity.
Qed.

Lemma rectangle_rows (t : list string) :
  is_rectangle t = true ->
  t <> [] /\ 0 < width t /\
  forall r, In r t -> String.length r = width t.
Proof.
  unfold is_rectangle. intros H.
  apply andb_prop in H as [H H3]. apply andb_prop in H as [H1 H2].
  apply Nat.ltb_lt in H1, H2. repeat split.
  - destruct t; [simpl in H1; lia | discriminate].
  - assumption.
  - intros r Hr. rewrite forallb_forall in H3.
    now apply Nat.eqb_eq, H3.
Qed.

Lemma rectangle_col_width (t : list string) :
  is_rectangle t = true -> col_width t = width t.
Proof.
  intros H. destruct (rectangle_rows t H) as (NE & Hw & _).
  destruct t as [|t0 t]; [congruence |]. simpl in *.
  destruct (String.length t0 =? 0)%nat eqn:E; [| reflexivity].
  apply Nat.eqb_eq in E. lia.
Qed.

Lemma cell_length (t : list string) (row : nat) :
  is_rectangle t = true -> String.length (cell t row) = width t.
Proof.
  intros H. unfold cell.
  destruct (nth_error t row) as [s|] eqn:E.
  - destruct (rectangle_rows t H) as (_ & _ & Hr).
    apply Hr. eapply nth_error_In; eassumption.
  - rewrite length_repeat_space. now apply rectangle_col_width.
Qed.

Lemma row_text_length (comp : list (list string)) (row : nat) :
  Forall (fun t => is_rectangle t = true) comp ->
  String.length (row_text comp row)
  = list_sum (map width comp) + 5 * (List.length comp - 1).
Proof.
  intros H. unfold row_text.
  rewrite length_join, length_map, map_map.
  replace (String.length (if (row =? 0)%nat then " (X) " else "     "))
    with 5 by (destruct (row =? 0)%nat; reflexivity).
  f_equal. f_equal. apply map_ext_in. intros t Ht.
  rewrite Forall_forall in H. now apply cell_length, H.
Qed.

Lemma row_text_not_empty (comp : list (list string)) (row : nat) :
  comp <> [] ->
  Forall (fun t => is_rectangle t = true) comp ->
  0 < String.length (row_text comp row).
Proof.
  intros NE H. rewrite row_text_length by assumption.
  destruct H as [|t comp Ht _]; [congruence |].
  destruct (rectangle_rows t Ht) as (_ & Hw & _). simpl. lia.
Qed.

Lemma cell_no_break (t : list string) (row : nat) :
  Forall (fun r => no_break r = true) t -> no_break (cell t row) = true.
Proof.
  intros H. unfold cell.
  destruct (nth_error t row) as [s|] eqn:E.
  - rewrite Forall_forall in H. apply H.
    eapply nth_error_In; eassumption.
  - apply no_break_spaces.
Qed.

Lemma row_text_no_break (comp : list (list string)) (row : nat) :
  Forall (fun t => Forall (fun r => no_break r = true) t) comp ->
  no_break (row_text comp row) = true.
Proof.
  intros H. unfold row_text. apply no_break_join.
  - destruct (row =? 0)%nat; reflexivity.
  - apply Forall_map. eapply Forall_impl; [| exact H].
    intros t Ht. now apply cell_no_break.
Qed.

Lemma diagram_of_no_break (w : world) :
  Forall (fun t => Forall (fun r => no_break r = true) t) (diagram_of w).
Proof.
  unfold diagram_of. apply Forall_map, Forall_forall.
  intros crys _. apply splitlines_no_break.
Qed.

(** A row of zero width is not a rectangle here: the code pads a component
    whose first row is empty with one blank, not with none. *)
Remark blank_cell_of_empty_row : cell [EmptyString] 1 = " ".
Proof. reflexivity. Qed.

(** C5.  On an element with factors whose diagrams are well-formed
    rectangles, [_repr_diagram] returns the output rows joined by line
    feeds, one row for each row of the tallest factor, and these rows are
    the lines of the text it returns.  A row is made of one cell per factor,
    in the order of the factors; the cells of the first row are joined by
    [" (X) "], those of a later row by five blanks.  The cell of a factor is
    its own row when it has one and blanks otherwise, and in either case it
    is as wide as the factor: no factor is left out of a row, and every row
    has the same length whichever factors are taller.  (An element without
    factors has no row to show: [max] raises [ValueError].) *)
Theorem repr_diagram_aligned (w : world) :
  Forall (fun t => is_rectangle t = true) (diagram_of w) ->
  let comp := diagram_of w in
  let rows := map (row_text comp) (seq 0 (height comp)) in
  match comp with
  | [] => fst (_repr_diagram w) = Raise ValueError
  | _ => fst (_repr_diagram w) = Ok (join newline rows) /\
         splitlines (join newline rows) = rows
  end /\
  (forall row,
     row_text comp row
     = join (if (row =? 0)%nat then " (X) " else "     ")
            (map (fun t => cell t row) comp)) /\
  (forall t row, In t comp ->
     String.length (cell t row) = width t /\
     (row < List.length t -> nth_error t row = Some (cell t row)) /\
     (List.length t <= row -> cell t row = repeat_str " " (width t))) /\
  (forall row,
     String.length (row_text comp row)
     = list_sum (map width comp) + 5 * (List.length comp - 1)).
Proof.
  intros Rect. cbv zeta.
  assert (Rows : Forall (fun t => t <> []) (diagram_of w)).
  { eapply Forall_impl; [| exact Rect].
    intros t Ht. apply (rectangle_rows t Ht). }
  split; [| split; [| split]].
  - destruct (diagram_of w) as [|t comp'] eqn:E.
    + rewrite repr_diagram_no_factor; [reflexivity |].
      unfold diagram_of in E. now apply map_eq_nil in E.
    + cbv beta iota. rewrite <- E in *.
      assert (NE : diagram_of w <> []) by (rewrite E; discriminate).
      split.
      * rewrite repr_diagram_run; [reflexivity | | exact Rows].
        intros E'. unfold diagram_of in NE. now rewrite E' in NE.
      * apply splitlines_join; apply Forall_map, Forall_forall; intros row _.
        -- apply row_text_no_break, diagram_of_no_break.
        -- now apply row_text_not_empty.
  - reflexivity.
  - intros t row Ht. rewrite Forall_forall in Rect.
    split; [now apply cell_length, Rect | split].
    + intros Hlt. unfold cell.
      destruct (nth_error t row) eqn:E; [reflexivity |].
      apply nth_error_None in E. lia.
    + intros Hle. unfold cell.
      apply nth_error_None in Hle. rewrite Hle.
      now rewrite rectangle_col_width by auto.
  - intros row. now apply row_text_length.
Qed.

(** ** Further properties of [_repr_diagram] and [pp] *)

Lemma rows_or_not (comp : list (list string)) :
  Forall (fun t => t <> []) comp \/ Exists (fun t => t = []) comp.
Proof.
  induction comp as [|t comp [IH | IH]].
  - left. constructor.
  - destruct t as [|r t].
    + right. now constructor.
    + left. constructor; [discriminate | assumption].
  - right. now constructor 2.
Qed.

(** The three ways a call of [_repr_diagram] can go. *)
Lemma repr_diagram_cases (w : world) :
  (_list (self w) = [] /\ _repr_diagram w = (Raise ValueError, w)) \/
  (Exists (fun t => t = []) (diagram_of w) /\
   _repr_diagram w = (Raise IndexError, w)) \/
  (_list (self w) <> [] /\ Forall (fun t => t <> []) (diagram_of w) /\
   _repr_diagram w
   = (Ok (join newline
            (map (row_text (diagram_of w)) (seq 0 (height (diagram_of w))))),
      w)).
Proof.
  destruct (_list (self w)) as [|x l] eqn:E.
  - left. split; [reflexivity | now apply repr_diagram_no_factor].
  - right. destruct (rows_or_not (diagram_of w)) as [H | H].
    + right. assert (NE : _list (self w) <> []) by (rewrite E; discriminate).
      rewrite <- E. repeat split; try assumption.
      now apply repr_diagram_run.
    + left. split; [assumption | now apply repr_diagram_zero_rows].
Qed.

Lemma repr_diagram_world (w : world) : snd (_repr_diagram w) = w.
Proof.
  destruct (repr_diagram_cases w) as [[_ E] | [[_ E] | (_ & _ & E)]];
    now rewrite E.
Qed.

Lemma no_row_no_rows (comp : list (list string)) :
  Forall (fun t => t <> []) comp -> Exists (fun t => t = []) comp -> False.
Proof.
  intros HF HE. apply Exists_exists in HE as (t & Ht & ->).
  rewrite Forall_forall in HF. now apply (HF [] Ht).
Qed.

Lemma diagram_of_nil (w : world) :
  diagram_of w = [] <-> _list (self w) = [].
Proof.
  unfold diagram_of. split; intros E.
  - now apply map_eq_nil in E.
  - now rewrite E.
Qed.

(** X1.  When [_repr_diagram] returns and when it raises.  It raises
    [ValueError] exactly on the element without factors, [IndexError]
    exactly when some factor has a diagram without rows, and returns a text
    exactly when there is a factor and every factor has a first row.  In
    each case the state is left as it was: nothing is printed and [self] is
    not indexed. *)
Theorem repr_diagram_outcome (w : world) :
  snd (_repr_diagram w) = w /\
  (fst (_repr_diagram w) = Raise ValueError <-> _list (self w) = []) /\
  (fst (_repr_diagram w) = Raise IndexError
   <-> Exists (fun t => t = []) (diagram_of w)) /\
  ((exists d, fst (_repr_diagram w) = Ok d)
   <-> _list (self w) <> [] /\ Forall (fun t => t <> []) (diagram_of w)).
Proof.
  split; [apply repr_diagram_world |].
  destruct (repr_diagram_cases w) as [[E R] | [[E R] | (NE & F & R)]];
    rewrite R; cbn [fst].
  - assert (D : diagram_of w = []) by now apply diagram_of_nil.
    split; [| split]; split.
    + intros _. exact E.
    + reflexivity.
    + discriminate.
    + rewrite D. intros H. inversion H.
    + intros [d H]. discriminate.
    + intros [H _]. congruence.
  - assert (NE : _list (self w) <> []).
    { intros H. apply diagram_of_nil in H. rewrite H in E. inversion E. }
    split; [| split]; split.
    + discriminate.
    + congruence.
    + intros _. exact E.
    + reflexivity.
    + intros [d H]. discriminate.
    + intros [_ H]. exfalso. eapply no_row_no_rows; eassumption.
  - split; [| split]; split.
    + discriminate.
    + congruence.
    + discriminate.
    + intros H. exfalso. eapply no_row_no_rows; eassumption.
    + intros _. split; assumption.
    + intros _. eexists; reflexivity.
Qed.

Lemma height_bounds (comp : list (list string)) :
  comp <> [] ->
  (forall t, In t comp -> List.length t <= height comp) /\
  (exists t, In t comp /\ List.length t = height comp).
Proof.
  intros NE. unfold height. split.
  - intros t Ht.
    assert (H : Forall (fun k => k <= list_max (map (fun t => List.length t) comp))
                       (map (fun t => List.length t) comp))
      by now apply list_max_le.
    rewrite Forall_forall in H. apply H. now apply in_map.
  - induction comp as [|t comp IH]; [congruence |].
    cbn [map list_max fold_right].
    destruct comp as [|t' comp].
    + exists t. split; [now left | simpl; lia].
    + destruct IH as (u & Hu & Eu); [discriminate |].
      fold (list_max (map (fun t => List.length t) (t' :: comp))).
      destruct (Nat.max_spec (List.length t)
                  (list_max (map (fun t => List.length t) (t' :: comp))))
        as [[_ ->] | [_ ->]].
      * exists u. split; [now right | assumption].
      * exists t. split; [now left | reflexivity].
Qed.

(** X2.  The layout for diagrams of any shape.  On an element whose
    factors all have a first row, [_repr_diagram] returns as many rows as
    the tallest factor has, joined by line feeds; in the row [row] a factor
    shows its own row [row] unchanged when it has one, and otherwise blanks
    as many as its first row is wide (one blank when the first row is
    empty), whatever the width of its other rows. *)
Theorem repr_diagram_layout (w : world) :
  _list (self w) <> [] ->
  Forall (fun t => t <> []) (diagram_of w) ->
  let comp := diagram_of w in
  _repr_diagram w
  = (Ok (join newline (map (row_text comp) (seq 0 (height comp)))), w) /\
  1 <= height comp /\
  (forall t, In t comp -> List.length t <= height comp) /\
  (exists t, In t comp /\ List.length t = height comp) /\
  (forall t row, In t comp ->
     (row < List.length t -> nth_error t row = Some (cell t row)) /\
     (List.length t <= row ->
        cell t row = repeat_str " " (Nat.max 1 (width t)))).
Proof.
  intros NE Rows. cbv zeta.
  assert (NE' : diagram_of w <> []) by (now rewrite diagram_of_nil).
  destruct (height_bounds _ NE') as [Hle Hex].
  split; [now apply repr_diagram_run |].
  split; [now apply height_pos |].
  split; [exact Hle |]. split; [exact Hex |].
  intros t row Ht. split.
  - intros Hlt. unfold cell.
    destruct (nth_error t row) eqn:E; [reflexivity |].
    apply nth_error_None in E. lia.
  - intros Hge. unfold cell. apply nth_error_None in Hge. rewrite Hge.
    f_equal. rewrite Forall_forall in Rows. specialize (Rows t Ht).
    destruct t as [|t0 t]; [congruence |]. cbn [col_width width].
    destruct (String.length t0 =? 0)%nat eqn:E0.
    + apply Nat.eqb_eq in E0. rewrite E0. reflexivity.
    + apply Nat.eqb_neq in E0. lia.
Qed.

Lemma cells_of_rows (t : list string) :
  map (fun row => cell t row) (seq 0 (List.length t)) = t.
Proof.
  apply nth_error_ext. intros n.
  rewrite nth_error_map, nth_error_seq.
  destruct (Nat.ltb_spec n (List.length t)) as [H | H]; cbn [option_map].
  - unfold cell. rewrite Nat.add_0_l.
    destruct (nth_error t n) eqn:E; [reflexivity |].
    apply nth_error_None in E. lia.
  - symmetry. now apply nth_error_None.
Qed.

(** X3.  The diagram of an element with a single factor is the diagram of
    that factor: when the factor's diagram is made of non-empty rows joined
    by line feeds, [_repr_diagram] returns it as it is. *)
Theorem repr_diagram_single (w : world) (x : Factor) (rows : list string) :
  _list (self w) = [x] ->
  factor_repr_diagram x = join newline rows ->
  rows <> [] ->
  Forall (fun r => no_break r = true) rows ->
  Forall (fun r => 0 < String.length r) rows ->
  _repr_diagram w = (Ok (factor_repr_diagram x), w).
Proof.
  intros E D NE Hb Hl.
  assert (C : diagram_of w = [rows]).
  { unfold diagram_of. rewrite E. cbn [map]. rewrite D.
    now rewrite splitlines_join. }
  rewrite repr_diagram_run.
  - rewrite C. f_equal. f_equal. rewrite D. f_equal.
    unfold height. cbn [map list_max fold_right]. rewrite Nat.max_0_r.
    rewrite <- (cells_of_rows rows) at 3.
    apply map_ext_in. intros row Hrow. unfold row_text. cbn [map join].
    reflexivity.
  - rewrite E. discriminate.
  - rewrite C. constructor; [assumption | constructor].
Qed.

(** X4.  [pp] prints the text that [_repr_diagram] returns, as one item
    and with no other effect; when [_repr_diagram] raises, [pp] raises the
    same error and prints nothing. *)
Theorem pp_prints_diagram (w : world) :
  match fst (_repr_diagram w) with
  | Ok d => pp w = (Ok tt, printed [d] w)
  | Raise e => pp w = (Raise e, w)
  end.
Proof.
  pose proof (repr_diagram_world w) as W.
  unfold pp, bind. destruct (_repr_diagram w) as [[d | e] w'];
    cbn [fst snd] in *; subst w'; reflexivity.
Qed.

End Diagram.

(** ** [classical_weight] *)

Section ClassicalWeight.
Context `{FI : FactorInterface}.

Lemma py_sum_from_weights (ws : list Weight) (acc : Weight) :
  py_sum_from (PyWeight acc) (map PyWeight ws)
  = Ok (PyWeight (fold_left weight_add ws acc)).
Proof.
  revert acc; induction ws as [|u ws IH]; intros acc; [reflexivity |].
  cbn [map py_sum_from py_add rbind fold_left]. apply IH.
Qed.

Lemma py_sum_weights (ws : list Weight) :
  py_sum (map PyWeight ws)
  = Ok (match ws with
        | [] => PyInt 0
        | _ => PyWeight (vector_sum ws)
        end).
Proof.
  destruct ws as [|u ws]; [reflexivity |].
  unfold py_sum, vector_sum.
  cbn [map py_sum_from py_add rbind fold_left Z.eqb].
  apply py_sum_from_weights.
Qed.

(** C4.  [classical_weight] returns, without an error, the sum in the
    weight lattice of the classical weights of the factors, taken in the
    order of the factors, and it leaves the state as it is; nothing but the
    classical weights of the factors enters the result.  On an element with
    at least one factor the value is that vector; on the element without
    factors it is the integer 0 that [sum] starts from, which reads as the
    zero vector. *)
Theorem classical_weight_is_vector_sum (w : world) :
  let ws := map factor_classical_weight (_list (self w)) in
  let v := match ws with
           | [] => PyInt 0
           | _ => PyWeight (vector_sum ws)
           end in
  classical_weight w = (Ok v, w) /\ as_weight v = Some (vector_sum ws).
Proof.
  intros ws v. split.
  - unfold classical_weight, bind, self_iter, lift.
    rewrite <- (map_map factor_classical_weight PyWeight).
    now rewrite py_sum_weights.
  - subst v. destruct ws; reflexivity.
Qed.

(** In a lattice, where the sum is associative with the zero vector as
    unit, the sum of the weights splits along a splitting of the factors. *)
Section Monoid.
Hypothesis add_assoc : forall u v t : Weight,
  weight_add u (weight_add v t) = weight_add (weight_add u v) t.
Hypothesis add_zero_l : forall u : Weight, weight_add weight_zero u = u.
Hypothesis add_zero_r : forall u : Weight, weight_add u weight_zero = u.

Lemma fold_add_from (ws : list Weight) (acc : Weight) :
  fold_left weight_add ws acc = weight_add acc (vector_sum ws).
Proof.
  unfold vector_sum.
  revert acc; induction ws as [|u ws IH]; intros acc; cbn [fold_left].
  - now rewrite add_zero_r.
  - rewrite IH, (IH (weight_add weight_zero u)), add_zero_l.
    now rewrite add_assoc.
Qed.

Lemma vector_sum_app (us vs : list Weight) :
  vector_sum (us ++ vs) = weight_add (vector_sum us) (vector_sum vs).
Proof.
  unfold vector_sum at 1. rewrite fold_left_app.
  now rewrite fold_add_from.
Qed.

(** What [classical_weight] does. *)
Lemma classical_weight_run (w : world) :
  classical_weight w
  = (Ok (match map factor_classical_weight (_list (self w)) with
         | [] => PyInt 0
         | ws => PyWeight (vector_sum ws)
         end), w).
Proof.
  unfold classical_weight, bind, self_iter, lift.
  rewrite <- (map_map factor_classical_weight PyWeight).
  rewrite py_sum_weights.
  destruct (map factor_classical_weight (_list (self w))); reflexivity.
Qed.

(** X9.  The classical weight is additive over the tensor product: in a
    lattice where the sum is associative with the zero vector as unit, an
    element whose factors are those of one element followed by those of
    another, each with at least one factor, has for classical weight the
    sum of their classical weights. *)
Theorem classical_weight_concat (w w1 w2 : world) :
  _list (self w) = (_list (self w1) ++ _list (self w2))%list ->
  _list (self w1) <> [] -> _list (self w2) <> [] ->
  exists u v,
    fst (classical_weight w1) = Ok (PyWeight u) /\
    fst (classical_weight w2) = Ok (PyWeight v) /\
    fst (classical_weight w) = Ok (PyWeight (weight_add u v)).
Proof.
  intros E N1 N2.
  exists (vector_sum (map factor_classical_weight (_list (self w1)))),
         (vector_sum (map factor_classical_weight (_list (self w2)))).
  rewrite !classical_weight_run, E, map_app, <- vector_sum_app.
  cbn [fst].
  destruct (_list (self w1)) as [|x1 r1]; [congruence |].
  destruct (_list (self w2)) as [|x2 r2]; [congruence |].
  repeat split.
Qed.

End Monoid.

(** In a lattice, where the sum is associative and commutative, the order
    of the factors does not matter. *)
Section Commutative.
Hypothesis add_assoc : forall u v t : Weight,
  weight_add u (weight_add v t) = weight_add (weight_add u v) t.
Hypothesis add_comm : forall u v : Weight, weight_add u v = weight_add v u.

Lemma fold_add_permutation (l l' : list Weight) :
  Permutation l l' ->
  forall acc, fold_left weight_add l acc = fold_left weight_add l' acc.
Proof.
  induction 1 as [| x l l' _ IH | x y l | l l' l'' _ IH1 _ IH2];
    intros acc; cbn [fold_left].
  - reflexivity.
  - apply IH.
  - f_equal. rewrite <- !add_assoc. f_equal. apply add_comm.
  - now rewrite IH1.
Qed.

(** X10.  The classical weight does not depend on the order of the
    factors: two elements whose factors are the same up to their order have
    the same classical weight, when the sum of the lattice is associative
    and commutative. *)
Theorem classical_weight_permutation (w1 w2 : world) :
  Permutation (_list (self w1)) (_list (self w2)) ->
  fst (classical_weight w1) = fst (classical_weight w2).
Proof.
  intros HP. rewrite !classical_weight_run. cbn [fst].
  pose proof (Permutation_map factor_classical_weight HP) as HM.
  destruct (map factor_classical_weight (_list (self w1))) as [|u us] eqn:E1.
  - apply Permutation_nil in HM. now rewrite HM.
  - destruct (map factor_classical_weight (_list (self w2)))
      as [|v vs] eqn:E2.
    + apply Permutation_sym, Permutation_nil in HM. discriminate.
    + f_equal. f_equal. unfold vector_sum. now apply fold_add_permutation.
Qed.

End Commutative.

End ClassicalWeight.

(** ** [to_tensor_product_of_kirillov_reshetikhin_crystals] *)

Section ToCrystals.
Context `{FI : FactorInterface}.

(** C8.  [to_tensor_product_of_kirillov_reshetikhin_crystals] returns,
    without an error and without a change of state, an element of the
    parent's tensor product of Kirillov-Reshetikhin crystals that has one
    factor for each factor of [self]: the factor at position [i] is
    [to_kirillov_reshetikhin_crystal] of the factor of [self] at position
    [i], and of that factor alone. *)
Theorem to_crystals_factorwise (w : world) :
  exists t,
    to_tensor_product_of_kirillov_reshetikhin_crystals w = (Ok t, w) /\
    krc_parent t
    = tensor_product_of_kirillov_reshetikhin_crystals (parent (self w)) /\
    krc_factors t
    = map factor_to_kirillov_reshetikhin_crystal (_list (self w)) /\
    List.length (krc_factors t) = List.length (_list (self w)) /\
    forall i,
      nth_error (krc_factors t) i
      = option_map factor_to_kirillov_reshetikhin_crystal
                   (nth_error (_list (self w)) i).
Proof.
  exists (TP_call
            (tensor_product_of_kirillov_reshetikhin_crystals (parent (self w)))
            (map factor_to_kirillov_reshetikhin_crystal (_list (self w)))).
  split; [reflexivity |]. cbn [krc_parent krc_factors TP_call].
  repeat split.
  - apply length_map.
  - intros i. apply nth_error_map.
Qed.

End ToCrystals.

(** ** [to_rigged_configuration] *)

Section ToRiggedConfiguration.
Context `{BE : BijectionEngine}.

Lemma printed_nil (w : world) : printed [] w = w.
Proof. unfold printed. rewrite app_nil_r. now destruct w. Qed.

Lemma printed_printed (l1 l2 : list string) (w : world) :
  printed l2 (printed l1 w) = printed (l1 ++ l2)%list w.
Proof. unfold printed; simpl. now rewrite app_assoc. Qed.

Lemma print_all (steps : list string) (w : world) :
  for_each steps (fun s _ => print s) tt w = (Ok tt, printed steps w).
Proof.
  revert w; induction steps as [|s steps IH]; intros w.
  - simpl. unfold ret. now rewrite printed_nil.
  - cbn [for_each]. erewrite bind_ok by reflexivity.
    rewrite IH. fold (printed [s] w). now rewrite printed_printed.
Qed.

(** What a run does: the outcome of the engine's computation, after its
    diagnostic lines when they are asked for. *)
Lemma run_spec (engine : Engine) (display_steps : bool) (w : world) :
  run engine display_steps w
  = (snd (engine_computation engine),
     if display_steps then printed (fst (engine_computation engine)) w
     else w).
Proof.
  unfold run. destruct (engine_computation engine) as [steps outcome].
  destruct display_steps.
  - erewrite bind_ok by apply print_all. reflexivity.
  - reflexivity.
Qed.

Lemma to_rigged_configuration_spec (display_steps : bool) (w : world) :
  to_rigged_configuration display_steps w
  = match KRTToRCBijection (self w) with
    | Ok engine => run engine display_steps w
    | Raise e => (Raise e, w)
    end.
Proof.
  unfold to_rigged_configuration, bind, get_self, lift.
  destruct (KRTToRCBijection (self w)); reflexivity.
Qed.

(** C9.  [to_rigged_configuration] has the same outcome, a rigged
    configuration or the error of the engine, whether [display_steps] is
    true or false.  Without the flag the state is left as it is; with it
    the state differs by lines added to the output, and by nothing else. *)
Theorem display_steps_only_prints (w : world) :
  fst (to_rigged_configuration true w)
  = fst (to_rigged_configuration false w) /\
  snd (to_rigged_configuration false w) = w /\
  exists lines, snd (to_rigged_configuration true w) = printed lines w.
Proof.
  rewrite !to_rigged_configuration_spec.
  destruct (KRTToRCBijection (self w)) as [engine | e].
  - rewrite !run_spec. cbn [fst snd]. repeat split.
    eexists; reflexivity.
  - cbn [fst snd]. repeat split.
    exists []. now rewrite printed_nil.
Qed.

End ToRiggedConfiguration.

(** ** The methods do not touch [self] *)

Section Frame.
Context `{BE : BijectionEngine}.

Lemma preserves_ret {A} (a : A) : preserves_self (ret a).
Proof. intros w. reflexivity. Qed.

Lemma preserves_lift {A} (r : result A) : preserves_self (lift r).
Proof. intros w. reflexivity. Qed.

Lemma preserves_bind {A B} (m : M A) (k : A -> M B) :
  preserves_self m -> (forall a, preserves_self (k a)) ->
  preserves_self (bind m k).
Proof.
  intros Hm Hk w. unfold bind. specialize (Hm w).
  destruct (m w) as [[a | e] w']; cbn [snd] in *.
  - now rewrite Hk.
  - assumption.
Qed.

Lemma preserves_get_self : preserves_self get_self.
Proof. intros w. reflexivity. Qed.

Lemma preserves_self_len : preserves_self self_len.
Proof. intros w. reflexivity. Qed.

Lemma preserves_self_getitem (i : nat) : preserves_self (self_getitem i).
Proof. intros w. reflexivity. Qed.

Lemma preserves_self_iter : preserves_self self_iter.
Proof. intros w. reflexivity. Qed.

Lemma preserves_self_parent : preserves_self self_parent.
Proof. intros w. reflexivity. Qed.

Lemma preserves_print (s : string) : preserves_self (print s).
Proof. intros w. reflexivity. Qed.

Lemma preserves_for_each {A S} (l : list A) (body : A -> S -> M S) (s : S) :
  (forall a s', preserves_self (body a s')) ->
  preserves_self (for_each l body s).
Proof.
  intros Hb. revert s.
  induction l as [|a l IH]; intros s; cbn [for_each].
  - apply preserves_ret.
  - apply preserves_bind; [apply Hb | assumption].
Qed.

Lemma preserves_run (engine : Engine) (display_steps : bool) :
  preserves_self (run engine display_steps).
Proof.
  intros w. rewrite run_spec. now destruct display_steps.
Qed.

(** The property tells computations apart: an assignment does not have
    it. *)
Lemma assign_list_changes_self (x : Factor) (w : world) :
  ~ preserves_self (assign_list (x :: _list (self w))).
Proof.
  intros H. specialize (H w). cbn in H.
  apply (f_equal (fun e => List.length (_list e))) in H. cbn in H. lia.
Qed.

Create HintDb frame.
#[local] Hint Resolve preserves_ret preserves_lift preserves_get_self
  preserves_self_len preserves_self_getitem preserves_self_iter
  preserves_self_parent preserves_print preserves_run : frame.

(** Walks through a method: binds, loops, branches and local definitions
    are taken apart, the primitives are in the hint database. *)
Ltac frame :=
  repeat first
    [ solve [auto with frame]
    | apply preserves_bind
    | apply preserves_for_each
    | progress cbv zeta
    | match goal with
      | |- forall _, _ => intro
      | |- preserves_self (if ?b then _ else _) => destruct b
      end ].

(** C7.  [_repr_], [_repr_diagram], [classical_weight],
    [to_rigged_configuration] (with either value of the flag) and
    [to_tensor_product_of_kirillov_reshetikhin_crystals] finish, with a
    value or with an error, in a state where [self] is what it was before
    the call: the same parent and the same factors in the same order.  The
    element has no field beside these two, and the engine works on the value
    of the element it is built from. *)
Theorem methods_preserve_self :
  preserves_self _repr_ /\
  preserves_self _repr_diagram /\
  preserves_self classical_weight /\
  (forall display_steps,
     preserves_self (to_rigged_configuration display_steps)) /\
  preserves_self to_tensor_product_of_kirillov_reshetikhin_crystals.
Proof.
  split; [| split; [| split; [| split]]].
  - unfold _repr_. frame.
  - unfold _repr_diagram. frame.
  - unfold classical_weight. frame.
  - intros display_steps. unfold to_rigged_configuration. frame.
  - unfold to_tensor_product_of_kirillov_reshetikhin_crystals. frame.
Qed.

End Frame.

(** ** [__init__] *)

Section Construction.
Context `{FI : FactorInterface}.

(** The element expression of the comprehension of [__init__]. *)
Local Abbreviation make_factor P :=
  (fun it : nat * list Letter =>
     let (i, tab) := it in
     rbind (getitem (crystals P) i) (fun c => c tab)).

(** More paths than factor constructors: the comprehension raises. *)
Lemma factors_too_many (P : Parent) (pathlist : list (list Letter)) (k : nat) :
  k <= List.length (crystals P) ->
  List.length (crystals P) < k + List.length pathlist ->
  exists e,
    comprehension (make_factor P) (enumerate_from k pathlist) = Raise e.
Proof.
  revert k. induction pathlist as [|tab rest IH]; intros k Hk Hlen.
  - simpl in Hlen. lia.
  - cbn [enumerate_from comprehension].
    destruct (getitem (crystals P) k) as [c | e0] eqn:E; cbn [rbind].
    + destruct (c tab) as [x | e]; cbn [rbind]; [| now exists e].
      apply getitem_Ok in E.
      assert (k < List.length (crystals P))
        by (apply nth_error_Some; congruence).
      destruct (IH (S k)) as [e He]; [lia | simpl in Hlen; lia |].
      rewrite He. now exists e.
    + now exists e0.
Qed.

(** When the comprehension returns, it has called each constructor on the
    path of its position. *)
Lemma factors_built (P : Parent) (pathlist : list (list Letter)) (k : nat)
      (fs : list Factor) :
  comprehension (make_factor P) (enumerate_from k pathlist) = Ok fs ->
  List.length fs = List.length pathlist /\
  forall i tab, nth_error pathlist i = Some tab ->
    exists c x, nth_error (crystals P) (k + i) = Some c /\
                c tab = Ok x /\ nth_error fs i = Some x.
Proof.
  revert k fs. induction pathlist as [|tab rest IH]; intros k fs.
  - cbn. intros [= <-]. split; [reflexivity |].
    intros [|i] tab; discriminate.
  - cbn [enumerate_from comprehension].
    destruct (getitem (crystals P) k) as [c | e0] eqn:E; cbn [rbind];
      [| discriminate].
    apply getitem_Ok in E.
    destruct (c tab) as [x | e] eqn:Ex; cbn [rbind]; [| discriminate].
    destruct (comprehension (make_factor P) (enumerate_from (S k) rest))
      as [fs' | e] eqn:Erest; cbn [rbind]; [| discriminate].
    intros [= <-]. destruct (IH (S k) fs' Erest) as [Hlen Hnth].
    split; [simpl; now rewrite Hlen |].
    intros [|i] tab' Hi.
    + cbn in Hi. injection Hi as <-. exists c, x.
      rewrite Nat.add_0_r. auto.
    + cbn in Hi. destruct (Hnth i tab' Hi) as (c' & x' & H1 & H2 & H3).
      exists c', x'. rewrite Nat.add_succ_r. auto.
Qed.

(** Constructors in number, each accepting its path: the comprehension
    returns. *)
Lemma factors_accepted (P : Parent) (pathlist : list (list Letter)) (k : nat) :
  k + List.length pathlist <= List.length (crystals P) ->
  (forall i tab c, nth_error pathlist i = Some tab ->
     nth_error (crystals P) (k + i) = Some c -> exists x, c tab = Ok x) ->
  exists fs,
    comprehension (make_factor P) (enumerate_from k pathlist) = Ok fs.
Proof.
  revert k. induction pathlist as [|tab rest IH]; intros k Hlen Hacc.
  - now exists [].
  - cbn [enumerate_from comprehension].
    cbn [List.length] in Hlen.
    destruct (getitem (crystals P) k) as [c | e0] eqn:E; cbn [rbind].
    + apply getitem_Ok in E.
      destruct (Hacc 0 tab c) as [x Hx];
        [reflexivity | now rewrite Nat.add_0_r |].
      rewrite Hx. cbn [rbind].
      destruct (IH (S k)) as [fs Hfs]; [lia | |].
      * intros i tab' c' Hi Hc. apply (Hacc (S i) tab' c' Hi).
        now rewrite Nat.add_succ_r.
      * rewrite Hfs. now exists (x :: fs).
    + apply getitem_Raise in E. lia.
Qed.

(** C2, as the code has it.  With more paths than the parent has factors,
    [__init__] raises and returns no element.  When it returns an element,
    the element has one factor for each path, neither fewer nor more, the
    factor at position [i] being the one [parent.crystals[i]] builds from
    the path at position [i]; the paths are then at most as many as the
    parent's factors.  And it does return an element whenever the paths are
    at most as many as the parent's factors and each constructor accepts
    its path: there is no check that they are as many. *)
Theorem init_pathlist_length (P : Parent) (list_ : list Factor)
        (pathlist : list (list Letter)) :
  (List.length (crystals P) < List.length pathlist ->
     exists e, __init__ P list_ (Some pathlist) = Raise e) /\
  (forall elt, __init__ P list_ (Some pathlist) = Ok elt ->
     parent elt = P /\
     List.length (_list elt) = List.length pathlist /\
     List.length pathlist <= List.length (crystals P) /\
     forall i tab, nth_error pathlist i = Some tab ->
       exists c x, nth_error (crystals P) i = Some c /\
                   c tab = Ok x /\ nth_error (_list elt) i = Some x) /\
  (List.length pathlist <= List.length (crystals P) ->
     (forall i tab c, nth_error pathlist i = Some tab ->
        nth_error (crystals P) i = Some c -> exists x, c tab = Ok x) ->
     exists elt, __init__ P list_ (Some pathlist) = Ok elt).
Proof.
  unfold __init__, enumerate. split; [| split].
  - intros Hlen.
    destruct (factors_too_many P pathlist 0) as [e He]; [lia | lia |].
    rewrite He. now exists e.
  - intros elt.
    destruct (comprehension (make_factor P) (enumerate_from 0 pathlist))
      as [fs | e] eqn:E; cbn [rbind]; [| discriminate].
    intros [= <-]. cbn [parent _list base_init].
    destruct (factors_built P pathlist 0 fs E) as [Hlen Hnth].
    repeat split; [assumption | | exact Hnth].
    destruct (Nat.le_gt_cases (List.length pathlist)
                              (List.length (crystals P))) as [H | H];
      [assumption |].
    destruct (factors_too_many P pathlist 0) as [e He]; [lia | lia |].
    congruence.
  - intros Hlen Hacc.
    destruct (factors_accepted P pathlist 0) as [fs Hfs];
      [lia | exact Hacc |].
    rewrite Hfs. now eexists.
Qed.

(** ** Further properties of [__init__] *)

Lemma enumerate_from_app {A} (l1 l2 : list A) (k : nat) :
  enumerate_from k (l1 ++ l2)
  = (enumerate_from k l1 ++ enumerate_from (k + List.length l1) l2)%list.
Proof.
  revert k. induction l1 as [|a l1 IH]; intros k; cbn [enumerate_from app].
  - now rewrite Nat.add_0_r.
  - rewrite IH. cbn [List.length]. now rewrite Nat.add_succ_r.
Qed.

Lemma comprehension_app {A B} (f : A -> result B) (l1 l2 : list A) :
  comprehension f (l1 ++ l2)
  = rbind (comprehension f l1) (fun a =>
    rbind (comprehension f l2) (fun b => Ok (a ++ b)%list)).
Proof.
  induction l1 as [|a l1 IH]; cbn [app comprehension rbind].
  - destruct (comprehension f l2); reflexivity.
  - rewrite IH. destruct (f a); cbn [rbind]; [| reflexivity].
    destruct (comprehension f l1); cbn [rbind]; [| reflexivity].
    destruct (comprehension f l2); reflexivity.
Qed.

(** The factors of a pathlist in two parts. *)
Lemma factors_app (P : Parent) (p1 p2 : list (list Letter)) :
  comprehension (make_factor P) (enumerate (p1 ++ p2)%list)
  = rbind (comprehension (make_factor P) (enumerate p1)) (fun a =>
    rbind (comprehension (make_factor P)
             (enumerate_from (List.length p1) p2))
          (fun b => Ok (a ++ b)%list)).
Proof.
  unfold enumerate. now rewrite enumerate_from_app, comprehension_app.
Qed.

(** X7.  The error of [__init__] is the error of the first path that
    cannot be turned into a factor.  When the paths [pre] are accepted, a
    path [tab] that follows them and is rejected by the constructor of its
    position makes [__init__] raise the error of that constructor, and a
    path that follows them beyond the last constructor makes it raise
    [IndexError], whatever the paths [post] after it. *)
Theorem init_first_error (P : Parent) (list_ : list Factor)
        (pre post : list (list Letter)) (tab : list Letter)
        (elt0 : TPElement) :
  __init__ P list_ (Some pre) = Ok elt0 ->
  (forall c e, nth_error (crystals P) (List.length pre) = Some c ->
     c tab = Raise e ->
     __init__ P list_ (Some (pre ++ tab :: post)%list) = Raise e) /\
  (List.length (crystals P) <= List.length pre ->
     __init__ P list_ (Some (pre ++ tab :: post)%list) = Raise IndexError).
Proof.
  unfold __init__. intros H.
  destruct (comprehension (make_factor P) (enumerate pre))
    as [fs | e0] eqn:E; cbn [rbind] in H; [| discriminate].
  split.
  - intros c e Hc He. rewrite factors_app, E.
    cbn [rbind enumerate_from comprehension].
    apply getitem_Ok in Hc. rewrite Hc. cbn [rbind]. now rewrite He.
  - intros Hlen. rewrite factors_app, E.
    cbn [rbind enumerate_from comprehension].
    unfold getitem at 1. apply nth_error_None in Hlen. now rewrite Hlen.
Qed.

(** X8.  [__init__] works path by path.  If it builds an element from the
    paths [p1] followed by [p2], it builds from [p1] alone the element with
    the first factors of that element; if it raises on [p1], it raises the
    same error on [p1] followed by [p2]; and the element it builds from
    paths is the element it builds, without paths, from the list of that
    element's factors. *)
Theorem init_prefix (P : Parent) (list_ : list Factor)
        (p1 p2 : list (list Letter)) :
  (forall elt, __init__ P list_ (Some (p1 ++ p2)%list) = Ok elt ->
     __init__ P list_ (Some p1)
     = Ok {| parent := P;
             _list := firstn (List.length p1) (_list elt) |} /\
     __init__ P (_list elt) None = Ok elt) /\
  (forall e, __init__ P list_ (Some p1) = Raise e ->
     __init__ P list_ (Some (p1 ++ p2)%list) = Raise e).
Proof.
  unfold __init__. split.
  - intros elt. rewrite factors_app.
    destruct (comprehension (make_factor P) (enumerate p1))
      as [fs1 | e1] eqn:E1; cbn [rbind]; [| discriminate].
    destruct (comprehension (make_factor P)
                (enumerate_from (List.length p1) p2))
      as [fs2 | e2] eqn:E2; cbn [rbind]; [| discriminate].
    intros [= <-]. cbn [_list base_init].
    destruct (factors_built P p1 0 fs1 E1) as [Hlen _].
    rewrite <- Hlen, firstn_app, Nat.sub_diag, firstn_all.
    cbn [firstn]. now rewrite app_nil_r.
  - intros e. rewrite factors_app.
    destruct (comprehension (make_factor P) (enumerate p1));
      cbn [rbind]; [discriminate | trivial].
Qed.

End Construction.

(** ** The methods on the data of the docstrings *)

Module Examples.
Import Sample.

Example doctest_init :
  __init__ KRT_A3 [] (Some path_A3) = Ok T_A3 /\
  map rows (_list T_A3)
  = [[[2]]; [[1]; [4]]; [[3]]; [[2]; [4]]; [[1]; [3]]; [[1]; [2]]]%Z.
Proof. split; reflexivity. Qed.

Example doctest_repr :
  fst (_repr_ (fresh T_A3))
  = Ok "[[2]] (X) [[1], [4]] (X) [[3]] (X) [[2], [4]] (X) [[1], [3]] (X) [[1], [2]]".
Proof. reflexivity. Qed.

Example doctest_repr_diagram :
  fst (_repr_diagram (fresh T_A4))
  = Ok (join newline ["  1  1 (X)   1 (X)   1  1  1";
                      "  2  2       2       2  2  2";
                      "             3       3  3  3"]).
Proof. reflexivity. Qed.

Example doctest_classical_weight :
  fst (classical_weight (fresh T_D4)) = Ok (PyWeight [0; 1; 1; 0]%Z).
Proof. reflexivity. Qed.

(** C2, a pathlist that the constructor accepts although the parent has six
    factors and the pathlist one path: the element has one factor. *)
Lemma init_accepts_short_pathlist :
  List.length path_short <> List.length (crystals KRT_A3) /\
  __init__ KRT_A3 [] (Some path_short)
  = Ok {| parent := KRT_A3;
          _list := [ {| dim := 4; rows := [[2%Z]] |} ] |}.
Proof. split; [discriminate | reflexivity]. Qed.

Lemma init_pathlist_length_witness :
  (exists e, __init__ KRT_A3 [] (Some path_long) = Raise e) /\
  (exists elt, __init__ KRT_A3 [] (Some path_short) = Ok elt).
Proof.
  split.
  - apply (proj1 (init_pathlist_length KRT_A3 [] path_long)).
    cbn. lia.
  - apply (proj2 (proj2 (init_pathlist_length KRT_A3 [] path_short))).
    + cbn. lia.
    + intros [|i] tab c Hp Hc; cbn in Hp, Hc.
      * injection Hp as <-. injection Hc as <-. eexists; reflexivity.
      * destruct i; discriminate.
Defined.

Lemma repr_is_join_witness :
  _list (self (fresh T_A3)) <> [] /\
  fst (_repr_ (fresh T_A3))
  = Ok "[[2]] (X) [[1], [4]] (X) [[3]] (X) [[2], [4]] (X) [[1], [3]] (X) [[1], [2]]".
Proof.
  assert (NE : _list (self (fresh T_A3)) <> []) by discriminate.
  split; [exact NE | exact (repr_is_join (fresh T_A3) NE)].
Defined.

Lemma repr_total_iff_nonempty_witness :
  fst (_repr_ (fresh T_empty)) = Raise IndexError /\
  exists s, fst (_repr_ (fresh T_A3)) = Ok s.
Proof.
  split.
  - apply (proj1 (repr_total_iff_nonempty (fresh T_empty))). reflexivity.
  - apply (proj2 (repr_total_iff_nonempty (fresh T_A3))). discriminate.
Defined.

Lemma repr_diagram_aligned_witness :
  Forall (fun t => is_rectangle t = true) (diagram_of (fresh T_A4)) /\
  fst (_repr_diagram (fresh T_A4))
  = Ok (join newline ["  1  1 (X)   1 (X)   1  1  1";
                      "  2  2       2       2  2  2";
                      "             3       3  3  3"]).
Proof.
  assert (R : Forall (fun t => is_rectangle t = true)
                     (diagram_of (fresh T_A4)))
    by (repeat constructor).
  split; [exact R |].
  exact (proj1 (proj1 (repr_diagram_aligned (fresh T_A4) R))).
Defined.

(** C6, on an element whose first factor has a diagram without rows:
    [_repr_diagram] raises [IndexError] where it reads the first row of
    each factor, and returns no diagram. *)
Theorem repr_diagram_zero_row_factor :
  splitlines (factor_repr_diagram no_row) = [] /\
  col_width (splitlines (factor_repr_diagram no_row)) = 1 /\
  _repr_diagram (fresh T_no_row) = (Raise IndexError, fresh T_no_row).
Proof. repeat split. Qed.

End Examples.

(** ** The further properties on the sample *)

Module MoreExamples.
Import Sample.

Lemma vec_add_comm (u v : list Z) : vec_add u v = vec_add v u.
Proof.
  revert v. induction u as [|x u IH]; intros [|y v]; cbn [vec_add];
    try reflexivity.
  now rewrite IH, Z.add_comm.
Qed.

Lemma vec_add_assoc (u v t : list Z) :
  vec_add u (vec_add v t) = vec_add (vec_add u v) t.
Proof.
  revert v t. induction u as [|x u IH]; intros [|y v] [|z t];
    cbn [vec_add]; try reflexivity.
  now rewrite IH, Z.add_assoc.
Qed.

Lemma vec_add_zero_r (u : list Z) : vec_add u [] = u.
Proof. destruct u; reflexivity. Qed.

Lemma repr_diagram_outcome_witness :
  fst (_repr_diagram (fresh T_no_row)) = Raise IndexError /\
  fst (_repr_diagram (fresh T_empty)) = Raise ValueError /\
  exists d, fst (_repr_diagram (fresh T_A4)) = Ok d.
Proof.
  split; [| split].
  - apply (proj1 (proj2 (proj2 (repr_diagram_outcome (fresh T_no_row))))).
    constructor. reflexivity.
  - apply (proj1 (proj2 (repr_diagram_outcome (fresh T_empty)))).
    reflexivity.
  - apply (proj2 (proj2 (proj2 (repr_diagram_outcome (fresh T_A4))))).
    split; [discriminate | repeat constructor; discriminate].
Defined.

Lemma repr_diagram_layout_witness :
  _repr_diagram (fresh T_A4)
  = (Ok (join newline ["  1  1 (X)   1 (X)   1  1  1";
                       "  2  2       2       2  2  2";
                       "             3       3  3  3"]),
     fresh T_A4) /\
  1 <= height (diagram_of (fresh T_A4)).
Proof.
  assert (NE : _list (self (fresh T_A4)) <> []) by discriminate.
  assert (R : Forall (fun t : list string => t <> [])
                     (diagram_of (fresh T_A4)))
    by (repeat constructor; discriminate).
  split.
  - exact (proj1 (repr_diagram_layout (fresh T_A4) NE R)).
  - exact (proj1 (proj2 (repr_diagram_layout (fresh T_A4) NE R))).
Defined.

Lemma repr_diagram_single_witness :
  _repr_diagram (fresh T_D4)
  = (Ok (join newline ["  2  1"; "  3 -1"]), fresh T_D4).
Proof.
  apply (repr_diagram_single (fresh T_D4)
           {| dim := 4; rows := [[2; 1]; [3; -1]]%Z |}
           ["  2  1"; "  3 -1"]).
  - reflexivity.
  - reflexivity.
  - discriminate.
  - repeat constructor.
  - repeat constructor.
Defined.

Lemma repr_concat_witness :
  exists s1 s2,
    fst (_repr_ (fresh T_D4)) = Ok s1 /\
    fst (_repr_ (fresh T_A3)) = Ok s2 /\
    fst (_repr_ (fresh {| parent := KRT_A3;
                          _list := _list T_D4 ++ _list T_A3 |}))
    = Ok (s1 ++ " (X) " ++ s2).
Proof.
  apply (repr_concat
           (fresh {| parent := KRT_A3; _list := _list T_D4 ++ _list T_A3 |})
           (fresh T_D4) (fresh T_A3)).
  - reflexivity.
  - discriminate.
  - discriminate.
Defined.

Lemma repr_reads_each_factor_once_witness :
  getitem_log (snd (_repr_ (fresh T_A3))) = [0; 1; 2; 3; 4; 5].
Proof.
  refine (proj2 (proj2 (repr_reads_each_factor_once (fresh T_A3) _))).
  discriminate.
Defined.

Lemma init_first_error_witness :
  __init__ KRT_A3 [] (Some ([[2]; [1]; [3]]%Z))
  = Raise (CollaboratorError "the path does not fill the shape") /\
  __init__ KRT_A3 [] (Some path_long) = Raise IndexError.
Proof.
  split.
  - refine (proj1 (init_first_error KRT_A3 [] [[2%Z]] [[3%Z]] [1%Z]
                     _ _) (kr_tableaux 4 2 1) _ _ _); reflexivity.
  - refine (proj2 (init_first_error KRT_A3 [] path_A3 [] [1%Z] T_A3 _) _).
    + reflexivity.
    + cbn. lia.
Defined.

Lemma init_prefix_witness :
  __init__ KRT_A3 [] (Some [[2%Z]])
  = Ok {| parent := KRT_A3; _list := firstn 1 (_list T_A3) |} /\
  __init__ KRT_A3 [] (Some ([[2]; [1]]%Z ++ [[3]]%Z)%list)
  = Raise (CollaboratorError "the path does not fill the shape").
Proof.
  split.
  - refine (proj1 (proj1 (init_prefix KRT_A3 [] [[2%Z]] (tl path_A3))
                         T_A3 _)).
    reflexivity.
  - apply (proj2 (init_prefix KRT_A3 [] [[2]; [1]]%Z [[3]]%Z)).
    reflexivity.
Defined.

Lemma classical_weight_concat_witness :
  exists u v,
    fst (classical_weight (fresh T_D4)) = Ok (PyWeight u) /\
    fst (classical_weight (fresh T_A3)) = Ok (PyWeight v) /\
    fst (classical_weight
           (fresh {| parent := KRT_A3;
                     _list := _list T_D4 ++ _list T_A3 |}))
    = Ok (PyWeight (weight_add u v)).
Proof.
  apply (classical_weight_concat (FI := factors) vec_add_assoc
           (fun u => eq_refl)
           vec_add_zero_r
           (fresh {| parent := KRT_A3; _list := _list T_D4 ++ _list T_A3 |})
           (fresh T_D4) (fresh T_A3)).
  - reflexivity.
  - discriminate.
  - discriminate.
Defined.

Lemma classical_weight_permutation_witness :
  fst (classical_weight
         (fresh {| parent := KRT_A3; _list := [one_box; no_row] |}))
  = fst (classical_weight
           (fresh {| parent := KRT_A3; _list := [no_row; one_box] |})).
Proof.
  apply (classical_weight_permutation (FI := factors)
           vec_add_assoc vec_add_comm).
  apply perm_swap.
Defined.

End MoreExamples.
